(** * Thing-key cache (things/redis/things.go) and the LoRa adapter's
      event-store subscription (cmd/lora/main.go)

    The cache keeps, for every pair (thing key, thing ID), two entries of a
    Redis store: [thing_key:<key>] holding the ID and [thing:<id>] holding
    the key.  The Go code talks to the store through the go-redis client,
    one request per call; the store itself is modelled as a finite map, and
    the client as a state that also carries the outcome of the requests to
    come (served, never delivered, or executed with the reply lost) and the
    requests issued so far.

    The file also covers the in-memory user repository (users/mocks) and
    the MongoDB reader (readers/mongodb/messages.go). *)

From stdpp Require Import gmap strings list.

Open Scope Z_scope.

(** ** The go-redis client ([github.com/go-redis/redis], an external
       library): the three commands the cache uses. *)
Module GoRedis.

(** Errors a command can return: [redis.Nil] (the key does not exist), or
    a failure of the request with its text (no answer from the server). *)
Inductive error : Type :=
| Nil
| Unreachable (text : string).

(** Why a request gets no answer: it never reached the server ([Dropped]),
    or the server executed the command and its reply never reached the
    client ([Lost]).  The client returns an error with the text in both
    cases and cannot tell them apart. *)
Inductive fault : Type :=
| Dropped (text : string)
| Lost (text : string).

Definition fault_text (f : fault) : string :=
  match f with Dropped text | Lost text => text end.

(** Whether the server executed the command of the request. *)
Definition applied (f : fault) : bool :=
  match f with Lost _ => true | Dropped _ => false end.

(** A stored value with the expiration it was written with, in
    nanoseconds ([time.Duration]); zero means the key never expires. *)
Record entry : Type := Entry { value : string; expiration : Z }.

Inductive request : Type :=
| SET (key val : string) (exp : Z)
| GET (key : string)
| DEL (keys : list string).

(** [db]: the content of the server.  [net]: for each request still to
    come, [Some f] when it will get no answer, for the reason [f];
    requests past the end of the list are served.  [trace]: the requests
    issued so far, oldest first, each with the error it returned. *)
Record Client : Type := mkClient {
  db : gmap string entry;
  net : list (option fault);
  trace : list (request * option error)
}.

(** Commands run in the state monad over the client. *)
Definition Cmd (A : Type) : Type := Client → A * Client.

#[global] Instance Cmd_ret : MRet Cmd := λ A a c, (a, c).
#[global] Instance Cmd_bind : MBind Cmd :=
  λ A B f m c, let '(a, c') := m c in f a c'.

(** What goes wrong with the [n]-th request from now, if anything. *)
Definition fault_at (n : nat) (c : Client) : option fault :=
  default None (net c !! n).

(** The next request's transport outcome: the text of the error, if any. *)
Definition next_fault (c : Client) : option string :=
  fault_text <$> fault_at 0 c.

(** The next [n] requests will be served. *)
Definition up (n : nat) (c : Client) : Prop :=
  Forall (λ o, o = None) (take n (net c)).

(** One reading request that got no answer: there is nothing the server
    could have changed, so it is as it was. *)
Definition failed (r : request) (text : string) (c : Client) : Client :=
  mkClient (db c) (tail (net c)) (trace c ++ [(r, Some (Unreachable text))]).

(** One writing request that got no answer: the server is in state [m]
    when it executed the command, and untouched when it never saw it. *)
Definition unanswered (r : request) (f : fault) (m : gmap string entry)
    (c : Client) : Client :=
  mkClient (if applied f then m else db c) (tail (net c))
           (trace c ++ [(r, Some (Unreachable (fault_text f)))]).

(** One request answered by the server, which is left in state [m]. *)
Definition served (r : request) (e : option error) (m : gmap string entry)
    (c : Client) : Client :=
  mkClient m (tail (net c)) (trace c ++ [(r, e)]).

(** [client.Set(key, value, expiration).Err()] ([Set] is reserved). *)
Definition Set_ (key val : string) (exp : Z) : Cmd (option error) := λ c,
  let r := SET key val exp in
  let m := <[key := Entry val exp]> (db c) in
  match fault_at 0 c with
  | Some f => (Some (Unreachable (fault_text f)), unanswered r f m c)
  | None => (None, served r None m c)
  end.

(** [client.Get(key).Result()]; a read leaves the server as it was,
    answered or not. *)
Definition Get (key : string) : Cmd (string * option error) := λ c,
  let r := GET key in
  match next_fault c with
  | Some text => (("", Some (Unreachable text)), failed r text c)
  | None =>
      match db c !! key with
      | Some e => ((value e, None), served r None (db c) c)
      | None => (("", Some Nil), served r (Some Nil) (db c) c)
      end
  end.

(** What the server does with DEL: the keys go one after the other, and
    the answer counts those that existed. *)
Fixpoint del_keys (keys : list string) (m : gmap string entry)
    : Z * gmap string entry :=
  match keys with
  | [] => (0, m)
  | k :: ks =>
      let '(n, m') := del_keys ks (delete k m) in
      ((if m !! k is Some _ then 1 else 0) + n, m')
  end.

(** [client.Del(keys...)]: one request for all the keys. *)
Definition Del (keys : list string) : Cmd (Z * option error) := λ c,
  let r := DEL keys in
  let '(n, m) := del_keys keys (db c) in
  match fault_at 0 c with
  | Some f => ((0, Some (Unreachable (fault_text f))), unanswered r f m c)
  | None => ((n, None), served r None m c)
  end.

(** The passing of [d] nanoseconds on the server: an entry with a
    positive expiration of at most [d] is dropped, one with a later
    expiration has [d] less to live, and one written with expiration zero
    is not touched. *)
Definition age (d : Z) (e : entry) : option entry :=
  if decide (expiration e = 0) then Some e
  else if decide (d < expiration e) then Some (Entry (value e) (expiration e - d))
  else None.

Definition elapse (d : Z) (m : gmap string entry) : gmap string entry :=
  omap (age d) m.

End GoRedis.

(** ** Package [errors] of the repository *)
Module Errors.

(** Modelled from the spec: package [errors] ([errors.New], [errors.Wrap])
    is not among the sources.  The spec says that cache-layer errors are
    wrapped with a component-identifying cause before returning; an error
    value is represented by the calls that built it: [New text], or
    [Wrap wrapper err] around an error [err] of the store client. *)
Inductive Error : Type :=
| New (text : string)
| Wrap (wrapper : Error) (err : GoRedis.error).

(** The component-identifying part of an error: the innermost wrapper. *)
Fixpoint component (e : Error) : Error :=
  match e with
  | New text => New text
  | Wrap w _ => component w
  end.

End Errors.

(** ** things/redis/things.go *)
Module ThingCache.
Import GoRedis Errors.

Definition keyPrefix : string := "thing_key".
Definition idPrefix : string := "thing".

Definition ErrRedisThingSave : Error := New "saving thing in redis cache error".
Definition ErrRedisThingID : Error := New "get thing id from redis cache error".
Definition ErrRedisThingRemove : Error := New "remove thing from redis cache error".

(** [fmt.Sprintf("%s:%s", a, b)] *)
Definition Sprintf_s_s (a b : string) : string := a +:+ ":" +:+ b.

(** The two keys of a pair, named as the locals that hold them. *)
Definition tkey (thingKey : string) : string := Sprintf_s_s keyPrefix thingKey.
Definition tid (thingID : string) : string := Sprintf_s_s idPrefix thingID.

Definition Save (thingKey thingID : string) : Cmd (option Error) :=
  let tkey := tkey thingKey in
  err ← Set_ tkey thingID 0;
  match err with
  | Some err => mret (Some (Wrap ErrRedisThingSave err))
  | None =>
      let tid := tid thingID in
      err ← Set_ tid thingKey 0;
      match err with
      | Some err => mret (Some (Wrap ErrRedisThingSave err))
      | None => mret None
      end
  end.

Definition ID (thingKey : string) : Cmd (string * option Error) :=
  let tkey := tkey thingKey in
  '(thingID, err) ← Get tkey;
  match err with
  | Some err => mret ("", Some (Wrap ErrRedisThingID err))
  | None => mret (thingID, None)
  end.

Definition Remove (thingID : string) : Cmd (option Error) :=
  let tid := tid thingID in
  '(key, err) ← Get tid;
  match err with
  | Some err => mret (Some (Wrap ErrRedisThingRemove err))
  | None =>
      let tkey := tkey key in
      '(_, err) ← Del [tkey; tid];
      match err with
      | Some err => mret (Some (Wrap ErrRedisThingRemove err))
      | None => mret None
      end
  end.

End ThingCache.

(** ** cmd/lora/main.go: the two subscriptions started by [main] *)
Module LoraMain.

(** What a goroutine of [main] does to the outside: lines written by the
    logger, by level, and [os.Exit], which ends the process. *)
Inductive effect : Type :=
| LogInfo (msg : string)
| LogWarn (msg : string)
| LogError (msg : string)
| OsExit (code : Z).

Definition loraServerTopic : string := "application/+/device/+/rx".

(** The process is ended by a run of effects when [os.Exit] is among them. *)
Definition exits (run : list effect) : bool :=
  existsb (λ e, if e is OsExit _ then true else false) run.

(** [subscribeToLoRaBroker]; [Subscribe] is the broker's method (package
    lora/mqtt), given by the error text it returns, if any. *)
Definition subscribeToLoRaBroker (Subscribe : string → option string)
    : list effect :=
  LogInfo "Subscribed to Lora MQTT broker" ::
  match Subscribe loraServerTopic with
  | Some err =>
      [LogError ("Failed to subscribe to Lora MQTT broker: " +:+ err); OsExit 1]
  | None => []
  end.

(** [subscribeToThingsES]; [Subscribe] is the event store's method
    (package lora/redis), given by the error text it returns, if any. *)
Definition subscribeToThingsES (Subscribe : string → option string)
    : list effect :=
  LogInfo "Subscribed to Redis Event Store" ::
  match Subscribe "mainflux.things" with
  | Some err =>
      [LogWarn ("Lora-adapter service failed to subscribe to Redis event source: " +:+ err)]
  | None => []
  end.

End LoraMain.

(** ** A store whose cache entries pair up *)
Module ThingCacheInv.
Import GoRedis ThingCache.

(** Every forward entry has the reverse entry that points back to it, and
    every reverse entry the forward one. *)
Definition paired (m : gmap string entry) : Prop :=
  ∀ k i, value <$> m !! tkey k = Some i ↔ value <$> m !! tid i = Some k.

End ThingCacheInv.

(** ** users/mocks: the in-memory user repository

    [users.User] is declared outside the sources at hand; the repository
    reads nothing of a user but its [Email], so the type, that field and the
    zero value [users.User{}] are taken as given.  Each method holds the
    mutex for its whole body and is one step on the map. *)
Module UsersMock.
Import Errors.

(** The errors of package users the repository returns (users/service.go). *)
Definition ErrConflict : Error := New "email already taken".
Definition ErrNotFound : Error := New "non-existent entity".
Definition ErrUserNotFound : Error := New "non-existent user".

Section repo.
Context {User : Type} (Email : User → string) (zero : User).

Definition Save (user : User) (users : gmap string User)
    : option Error * gmap string User :=
  match users !! Email user with
  | Some _ => (Some ErrConflict, users)
  | None => (None, <[Email user := user]> users)
  end.

Definition Update (user : User) (users : gmap string User)
    : option Error * gmap string User :=
  match users !! Email user with
  | None => (Some ErrUserNotFound, users)
  | Some _ => (None, <[Email user := user]> users)
  end.

Definition UpdateUser (user : User) (users : gmap string User)
    : option Error * gmap string User :=
  match users !! Email user with
  | None => (Some ErrUserNotFound, users)
  | Some _ => (None, <[Email user := user]> users)
  end.

Definition RetrieveByID (email : string) (users : gmap string User)
    : User * option Error :=
  match users !! email with
  | None => (zero, Some ErrNotFound)
  | Some val => (val, None)
  end.

Definition UpdatePassword (token password : string) (users : gmap string User)
    : option Error * gmap string User :=
  match users !! token with
  | None => (Some ErrUserNotFound, users)
  | Some _ => (None, users)
  end.

(** A call of the repository, and a run of calls from left to right. *)
Inductive call : Type :=
| CallSave (user : User)
| CallUpdate (user : User)
| CallUpdateUser (user : User)
| CallUpdatePassword (token password : string).

Definition step (users : gmap string User) (k : call) : gmap string User :=
  match k with
  | CallSave u => (Save u users).2
  | CallUpdate u => (Update u users).2
  | CallUpdateUser u => (UpdateUser u users).2
  | CallUpdatePassword t p => (UpdatePassword t p users).2
  end.

Definition run (calls : list call) (users : gmap string User)
    : gmap string User :=
  foldl step users calls.

End repo.
End UsersMock.

(** ** readers/mongodb/messages.go: the filter of a read *)
Module MongoReader.

(** [bson.E]; the values put in the filter are strings. *)
Record E : Type := mkE { Key : string; Value : string }.

(** The names the [switch] lets through. *)
Definition queried (name : string) : bool :=
  bool_decide (name ∈ ["channel"; "subtopic"; "publisher"; "name"; "protocol"]).

(** [fmtCondition]; [query] is the map's entries in the order the [range]
    loop visits them. *)
Definition fmtCondition (chanID : string) (query : list (string * string))
    : list E :=
  foldl (λ filter '(name, value),
           if queried name then filter ++ [mkE name value] else filter)
        [mkE "channel" chanID] query.

(** The document as stored ([message]) and the message handed back
    ([senml.Message]); a nil pointer is [None].  [float64] values are only
    copied, so the type is left open. *)
Module Doc.
Record message {float64 : Type} : Type := mkMessage {
  Channel : string; Subtopic : string; Publisher : string;
  Protocol : string; Name : string; Unit : string;
  Value : option float64; StringValue : option string;
  BoolValue : option bool; DataValue : option string;
  Sum : option float64; Time : float64; UpdateTime : float64
}.
Arguments message : clear implicits.
End Doc.

Module Senml.
Record Message {float64 : Type} : Type := mkMessage {
  Channel : string; Subtopic : string; Publisher : string;
  Protocol : string; Name : string; Unit : string;
  Value : option float64; StringValue : option string;
  DataValue : option string; BoolValue : option bool;
  Sum : option float64; Time : float64; UpdateTime : float64
}.
Arguments Message : clear implicits.
End Senml.

(** [readers.MessagesPage]; the counters are [uint64]. *)
Record MessagesPage {float64 : Type} : Type := mkPage {
  Total : Z; Offset : Z; Limit : Z;
  Messages : list (Senml.Message float64)
}.
Arguments MessagesPage : clear implicits.

(** [errors.Wrap(errReadMessages, err)], [err] being the driver's error,
    given by its text. *)
Inductive ReadError : Type :=
| Wrap_errReadMessages (err : string).

Section read.
Context {float64 : Type}.

(** [readers.MessagesPage{}] *)
Definition zeroPage : MessagesPage float64 := mkPage float64 0 0 0 [].

(** The body of the loop of [ReadAll]: the message built from a decoded
    document, with the one value field the [switch] picks. *)
Definition fromDoc (m : Doc.message float64) : Senml.Message float64 :=
  let msg v sv dv bv :=
    Senml.mkMessage float64
      (Doc.Channel m) (Doc.Subtopic m) (Doc.Publisher m) (Doc.Protocol m)
      (Doc.Name m) (Doc.Unit m) v sv dv bv
      (Doc.Sum m) (Doc.Time m) (Doc.UpdateTime m) in
  match Doc.Value m, Doc.StringValue m, Doc.DataValue m, Doc.BoolValue m with
  | Some v, _, _, _ => msg (Some v) None None None
  | None, Some sv, _, _ => msg None (Some sv) None None
  | None, None, Some dv, _ => msg None None (Some dv) None
  | None, None, None, Some bv => msg None None None (Some bv)
  | None, None, None, None => msg None None None None
  end.

(** The loop over the cursor: each document the cursor yields either
    decodes ([inr]) or fails to ([inl], with the error's text). *)
Fixpoint decodeAll (docs : list (string + Doc.message float64))
    (messages : list (Senml.Message float64))
    : string + list (Senml.Message float64) :=
  match docs with
  | [] => inr messages
  | inl err :: _ => inl err
  | inr m :: docs => decodeAll docs (messages ++ [fromDoc m])
  end.

(** [ReadAll], given what the driver answers: [find] is the answer of
    [col.Find] (an error, or the documents of the cursor), [count] that of
    [col.CountDocuments] (an error, or the [int64] total). *)
Definition ReadAll (find : string + list (string + Doc.message float64))
    (count : string + Z) (offset limit : Z)
    : MessagesPage float64 * option ReadError :=
  match find with
  | inl err => (zeroPage, Some (Wrap_errReadMessages err))
  | inr docs =>
      match decodeAll docs [] with
      | inl err => (zeroPage, Some (Wrap_errReadMessages err))
      | inr messages =>
          match count with
          | inl err => (zeroPage, Some (Wrap_errReadMessages err))
          | inr total =>
              if decide (total < 0) then (zeroPage, None)
              else (mkPage float64 total offset limit messages, None)
          end
      end
  end.

End read.

End MongoReader.

Import GoRedis Errors ThingCache.


(** * Properties *)

(** The spec's scenario A, run on an empty store that answers. *)
Example scenario_A :
  let c0 := mkClient ∅ [] [] in
  let '(_, c1) := Save "key-123" "thing-abc" c0 in
  let '(r1, c2) := ID "key-123" c1 in
  let '(r2, c3) := Remove "thing-abc" c2 in
  let '(r3, c4) := ID "key-123" c3 in
  r1 = ("thing-abc", None) ∧ r2 = None ∧
  r3 = ("", Some (Wrap ErrRedisThingID Nil)).
Proof. vm_compute. done. Qed.

(** ** Keys of the store *)
Section keys.

(** A forward key is never a reverse key: the prefixes differ at the
    sixth character. *)
Lemma tkey_tid_ne a b : tkey a ≠ tid b.
Proof. unfold tkey, tid, Sprintf_s_s. simpl. by intros [=]. Qed.

Lemma tkey_inj a b : tkey a = tkey b → a = b.
Proof. unfold tkey, Sprintf_s_s. simpl. by intros [=]. Qed.

Lemma tid_inj a b : tid a = tid b → a = b.
Proof. unfold tid, Sprintf_s_s. simpl. by intros [=]. Qed.

End keys.

(** ** The three operations, request by request *)
Section equations.

Lemma del_keys_pair a b (m : gmap string entry) :
  (del_keys [a; b] m).2 = delete b (delete a m).
Proof. reflexivity. Qed.

(** The outcome of the request after the next is that of the next request
    once one has been answered. *)
Lemma fault_at_served n r e m c :
  fault_at n (served r e m c) = fault_at (S n) c.
Proof. unfold fault_at, served. simpl. by rewrite lookup_tail. Qed.

Lemma next_fault_None c : fault_at 0 c = None → next_fault c = None.
Proof. unfold next_fault. by intros ->. Qed.

Lemma next_fault_Some c f :
  fault_at 0 c = Some f → next_fault c = Some (fault_text f).
Proof. unfold next_fault. by intros ->. Qed.

Lemma Save_eq thingKey thingID c :
  Save thingKey thingID c =
  let w1 := SET (tkey thingKey) thingID 0 in
  let w2 := SET (tid thingID) thingKey 0 in
  let m1 := <[tkey thingKey := Entry thingID 0]> (db c) in
  let m2 := <[tid thingID := Entry thingKey 0]> m1 in
  match fault_at 0 c with
  | Some f =>
      (Some (Wrap ErrRedisThingSave (Unreachable (fault_text f))),
       unanswered w1 f m1 c)
  | None =>
      let c1 := served w1 None m1 c in
      match fault_at 0 c1 with
      | Some f =>
          (Some (Wrap ErrRedisThingSave (Unreachable (fault_text f))),
           unanswered w2 f m2 c1)
      | None => (None, served w2 None m2 c1)
      end
  end.
Proof.
  unfold Save, mbind, Cmd_bind, mret, Cmd_ret, Set_. cbv zeta.
  destruct (fault_at 0 c); [done|].
  by destruct (fault_at 0 _).
Qed.

Lemma ID_eq thingKey c :
  ID thingKey c =
  match next_fault c with
  | Some t =>
      (("", Some (Wrap ErrRedisThingID (Unreachable t))),
       failed (GET (tkey thingKey)) t c)
  | None =>
      match db c !! tkey thingKey with
      | Some e => ((value e, None), served (GET (tkey thingKey)) None (db c) c)
      | None =>
          (("", Some (Wrap ErrRedisThingID Nil)),
           served (GET (tkey thingKey)) (Some Nil) (db c) c)
      end
  end.
Proof.
  unfold ID, mbind, Cmd_bind, mret, Cmd_ret, Get.
  destruct (next_fault c); [done|]. by destruct (db c !! _).
Qed.

Lemma Remove_eq thingID c :
  Remove thingID c =
  match next_fault c with
  | Some t =>
      (Some (Wrap ErrRedisThingRemove (Unreachable t)),
       failed (GET (tid thingID)) t c)
  | None =>
      match db c !! tid thingID with
      | None =>
          (Some (Wrap ErrRedisThingRemove Nil),
           served (GET (tid thingID)) (Some Nil) (db c) c)
      | Some e =>
          let c1 := served (GET (tid thingID)) None (db c) c in
          let del := DEL [tkey (value e); tid thingID] in
          let m := delete (tid thingID) (delete (tkey (value e)) (db c)) in
          match fault_at 0 c1 with
          | Some f =>
              (Some (Wrap ErrRedisThingRemove (Unreachable (fault_text f))),
               unanswered del f m c1)
          | None => (None, served del None m c1)
          end
      end
  end.
Proof.
  unfold Remove, mbind, Cmd_bind, mret, Cmd_ret, Get.
  destruct (next_fault c); [done|].
  destruct (db c !! _) as [e|]; [|done]. cbv zeta.
  unfold Del. cbn [del_keys]. by destruct (fault_at 0 _).
Qed.

(** What a successful [Save] leaves in the store. *)
Lemma Save_ok_db thingKey thingID c c' :
  Save thingKey thingID c = (None, c') →
  db c' = <[tid thingID := Entry thingKey 0]>
            (<[tkey thingKey := Entry thingID 0]> (db c)).
Proof.
  rewrite Save_eq. cbv zeta. destruct (fault_at 0 c); [done|].
  destruct (fault_at 0 _); [done|]. by intros [= <-].
Qed.

End equations.

(** ** Save, then look up *)
Section lookup.

(** C1: after a successful [Save A B], the forward entry holds [B] and
    the reverse entry, keyed by [B], holds [A]; [ID A] returns [B], and a
    read of the reverse entry returns [A], whenever the request reaches
    the store (a request that does not is answered by the transport
    error, wrapped). *)
Theorem save_then_lookup (A B : string) (c c' : Client) :
  Save A B c = (None, c') →
  value <$> db c' !! tkey A = Some B ∧
  value <$> db c' !! tid B = Some A ∧
  (ID A c').1 =
    match next_fault c' with
    | None => (B, None)
    | Some t => ("", Some (Wrap ErrRedisThingID (Unreachable t)))
    end ∧
  (Get (tid B) c').1 =
    match next_fault c' with
    | None => (A, None)
    | Some t => ("", Some (Unreachable t))
    end.
Proof.
  intros Hs. apply Save_ok_db in Hs.
  assert (Hf : db c' !! tkey A = Some (Entry B 0)).
  { rewrite Hs, lookup_insert_ne by (apply not_eq_sym, tkey_tid_ne).
    apply lookup_insert_eq. }
  assert (Hr : db c' !! tid B = Some (Entry A 0)).
  { rewrite Hs. apply lookup_insert_eq. }
  rewrite Hf, Hr, ID_eq. unfold Get.
  destruct (next_fault c'); rewrite ?Hf, ?Hr; done.
Qed.

Lemma save_then_lookup_witness :
  let c := mkClient ∅ [] [] in
  let c' := (Save "key-123" "thing-abc" c).2 in
  value <$> db c' !! tkey "key-123" = Some "thing-abc" ∧
  value <$> db c' !! tid "thing-abc" = Some "key-123" ∧
  (ID "key-123" c').1 = ("thing-abc", None) ∧
  (Get (tid "thing-abc") c').1 = ("key-123", None).
Proof.
  intros c c'.
  apply (save_then_lookup "key-123" "thing-abc" c c'). reflexivity.
Defined.

(** C10: [ID] leaves the store as it found it, whether the lookup hits,
    misses or fails. *)
Theorem ID_store_unchanged (thingKey : string) (c : Client) :
  db (ID thingKey c).2 = db c.
Proof.
  rewrite ID_eq. destruct (next_fault c); [done|].
  by destruct (db c !! _).
Qed.

End lookup.

(** ** Remove *)
Section remove.

Lemma up_S n c :
  up (S n) c →
  fault_at 0 c = None ∧
  next_fault c = None ∧
  (∀ r e m, up n (served r e m c)).
Proof.
  unfold up, next_fault, fault_at, served.
  destruct (net c) as [|[t|] l]; simpl.
  - intros _. do 2 (split; [done|]). intros _ _ _.
    rewrite take_nil. constructor.
  - by intros [[=] _]%Forall_cons.
  - by intros [_ ?]%Forall_cons.
Qed.

(** C2: after a successful [Save A B] followed by a successful
    [Remove B], neither the forward entry [thing_key:A] nor the reverse
    entry [thing:B] is in the store, and [ID A] reports that the key is
    not there ([redis.Nil], wrapped) whenever its request reaches the
    store. *)
Theorem save_remove_absent (A B : string) (c c1 c2 : Client) :
  Save A B c = (None, c1) →
  Remove B c1 = (None, c2) →
  db c2 !! tkey A = None ∧
  db c2 !! tid B = None ∧
  (ID A c2).1 =
    match next_fault c2 with
    | None => ("", Some (Wrap ErrRedisThingID Nil))
    | Some t => ("", Some (Wrap ErrRedisThingID (Unreachable t)))
    end.
Proof.
  intros Hs%Save_ok_db. rewrite Remove_eq.
  destruct (next_fault c1); [done|].
  rewrite Hs at 1. rewrite lookup_insert_eq. cbv zeta. simpl value.
  destruct (fault_at 0 _); [done|]. intros [= <-]. simpl db.
  assert (Hf : delete (tid B) (delete (tkey A) (db c1)) !! tkey A = None).
  { rewrite lookup_delete_ne by (apply not_eq_sym, tkey_tid_ne).
    apply lookup_delete_eq. }
  split; [done|]. split; [apply lookup_delete_eq|].
  rewrite ID_eq. simpl db. rewrite Hf. by destruct (next_fault _).
Qed.

Lemma save_remove_absent_witness :
  let c := mkClient ∅ [] [] in
  let c1 := (Save "key-123" "thing-abc" c).2 in
  let c2 := (Remove "thing-abc" c1).2 in
  db c2 !! tkey "key-123" = None ∧
  db c2 !! tid "thing-abc" = None ∧
  (ID "key-123" c2).1 = ("", Some (Wrap ErrRedisThingID Nil)).
Proof.
  intros c c1 c2.
  apply (save_remove_absent "key-123" "thing-abc" c c1 c2); reflexivity.
Defined.

(** C3: [Remove] first reads the reverse entry [thing:<id>].  When that
    read gets no answer or finds nothing, it is the only request, an error
    is returned and the store is untouched.  When it yields the stored key,
    exactly one more request follows: a single DEL naming the forward
    entry of that key and the reverse entry.  Served, it removes both and
    [Remove] returns nil; unanswered, [Remove] returns the error, and the
    store has lost both entries (the server ran the DEL) or neither (it
    never saw it).  So whenever the reverse entry is gone after [Remove],
    so is the forward entry of the key it held. *)
Theorem remove_resolves_then_deletes_once (thingID : string) (c : Client) :
  let rc := Remove thingID c in
  let get := GET (tid thingID) in
  match next_fault c, db c !! tid thingID with
  | Some t, _ =>
      trace rc.2 = trace c ++ [(get, Some (Unreachable t))] ∧
      rc.1 = Some (Wrap ErrRedisThingRemove (Unreachable t)) ∧
      db rc.2 = db c
  | None, None =>
      trace rc.2 = trace c ++ [(get, Some Nil)] ∧
      rc.1 = Some (Wrap ErrRedisThingRemove Nil) ∧
      db rc.2 = db c
  | None, Some en =>
      let del := DEL [tkey (value en); tid thingID] in
      let both_gone :=
        delete (tid thingID) (delete (tkey (value en)) (db c)) in
      match fault_at 1 c with
      | None =>
          trace rc.2 = trace c ++ [(get, None); (del, None)] ∧
          rc.1 = None ∧
          db rc.2 = both_gone
      | Some f =>
          trace rc.2 = trace c ++
            [(get, None); (del, Some (Unreachable (fault_text f)))] ∧
          rc.1 = Some (Wrap ErrRedisThingRemove (Unreachable (fault_text f))) ∧
          db rc.2 = if applied f then both_gone else db c
      end
  end ∧
  (∀ key, value <$> db c !! tid thingID = Some key →
          db rc.2 !! tid thingID = None → db rc.2 !! tkey key = None).
Proof.
  cbv zeta. rewrite Remove_eq. destruct (next_fault c) as [t|].
  { split; [done|]. simpl. intros key H1 H2. by rewrite H2 in H1. }
  destruct (db c !! tid thingID) as [en|] eqn:Hrev.
  2:{ split; [done|]. by intros key [=]. }
  cbv zeta. rewrite fault_at_served.
  assert (Hgone : ∀ key, value <$> Some en = Some key →
            delete (tid thingID) (delete (tkey (value en)) (db c)) !! tkey key
            = None).
  { intros key [= <-].
    rewrite lookup_delete_ne by (apply not_eq_sym, tkey_tid_ne).
    apply lookup_delete_eq. }
  destruct (fault_at 1 c) as [f|]; cbn [fst snd trace db unanswered served].
  - split; [by rewrite <- app_assoc|]. intros key Hk.
    destruct (applied f); [intros _; by apply Hgone|].
    intros Hn. by rewrite Hrev in Hn.
  - split; [by rewrite <- app_assoc|]. intros key Hk _. by apply Hgone.
Qed.

Lemma remove_resolves_then_deletes_once_witness :
  let c := (Save "key-123" "thing-abc" (mkClient ∅ [] [])).2 in
  let rc := Remove "thing-abc" c in
  (trace rc.2 = trace c ++
     [(GET (tid "thing-abc"), None);
      (DEL [tkey "key-123"; tid "thing-abc"], None)] ∧
   rc.1 = None ∧
   db rc.2 = delete (tid "thing-abc") (delete (tkey "key-123") (db c))) ∧
  db rc.2 !! tid "thing-abc" = None ∧
  db rc.2 !! tkey "key-123" = None.
Proof.
  intros c rc. split; [|split].
  - exact (proj1 (remove_resolves_then_deletes_once "thing-abc" c)).
  - reflexivity.
  - apply (proj2 (remove_resolves_then_deletes_once "thing-abc" c));
      reflexivity.
Defined.

(** C5: when the reverse entry of a thing ID is not in the store,
    [Remove] returns an error (the store's "no such key", or the
    transport failure, wrapped) and leaves the store as it was. *)
Theorem remove_absent_fails (thingID : string) (c : Client) :
  db c !! tid thingID = None →
  ∃ e c', Remove thingID c = (Some (Wrap ErrRedisThingRemove e), c') ∧
          db c' = db c.
Proof.
  intros Habs. rewrite Remove_eq, Habs.
  destruct (next_fault c); eauto.
Qed.

Lemma remove_absent_fails_witness :
  let c := (Remove "thing-abc"
              (Save "key-123" "thing-abc" (mkClient ∅ [] [])).2).2 in
  ∃ e c', Remove "thing-abc" c = (Some (Wrap ErrRedisThingRemove e), c') ∧
          db c' = db c.
Proof.
  intros c. apply (remove_absent_fails "thing-abc" c). reflexivity.
Defined.

(** C9: after successful [Save K id1] and [Save K id2] with
    [id1 ≠ id2], the forward entry maps [K] to [id2] and the reverse
    entry of [id1] still maps to [K]; a [Remove id1] whose two requests
    are served then succeeds and deletes the forward entry of [K], the
    one that belongs to the pair [(K, id2)], whose reverse entry stays. *)
Theorem stale_reverse_removes_live_forward
    (K id1 id2 : string) (c c1 c2 : Client) :
  id1 ≠ id2 →
  Save K id1 c = (None, c1) →
  Save K id2 c1 = (None, c2) →
  value <$> db c2 !! tkey K = Some id2 ∧
  value <$> db c2 !! tid id1 = Some K ∧
  (up 2 c2 →
   ∃ c3, Remove id1 c2 = (None, c3) ∧
         db c3 !! tkey K = None ∧
         db c3 !! tid id1 = None ∧
         value <$> db c3 !! tid id2 = Some K).
Proof.
  intros Hne H1%Save_ok_db H2%Save_ok_db.
  assert (Hn : tid id2 ≠ tid id1) by (intros ?%tid_inj; congruence).
  assert (Hf : db c2 !! tkey K = Some (Entry id2 0)).
  { rewrite H2, lookup_insert_ne by (apply not_eq_sym, tkey_tid_ne).
    apply lookup_insert_eq. }
  assert (Hr : db c2 !! tid id1 = Some (Entry K 0)).
  { rewrite H2, lookup_insert_ne by done.
    rewrite lookup_insert_ne by apply tkey_tid_ne.
    rewrite H1. apply lookup_insert_eq. }
  assert (Hr2 : db c2 !! tid id2 = Some (Entry K 0)).
  { rewrite H2. apply lookup_insert_eq. }
  rewrite Hf, Hr. do 2 (split; [done|]).
  intros (_ & Hup1 & Hup)%up_S. rewrite Remove_eq, Hup1, Hr. cbv zeta.
  specialize (Hup (GET (tid id1)) None (db c2)).
  apply up_S in Hup as [-> _]. eexists. split; [done|]. simpl.
  split; [|split].
  - rewrite lookup_delete_ne by (apply not_eq_sym, tkey_tid_ne).
    apply lookup_delete_eq.
  - apply lookup_delete_eq.
  - rewrite lookup_delete_ne by done.
    rewrite lookup_delete_ne by apply tkey_tid_ne. by rewrite Hr2.
Qed.

Lemma stale_reverse_removes_live_forward_witness :
  let c := mkClient ∅ [] [] in
  let c1 := (Save "key-123" "thing-old" c).2 in
  let c2 := (Save "key-123" "thing-new" c1).2 in
  value <$> db c2 !! tkey "key-123" = Some "thing-new" ∧
  value <$> db c2 !! tid "thing-old" = Some "key-123" ∧
  ∃ c3, Remove "thing-old" c2 = (None, c3) ∧
        db c3 !! tkey "key-123" = None ∧
        db c3 !! tid "thing-old" = None ∧
        value <$> db c3 !! tid "thing-new" = Some "key-123".
Proof.
  intros c c1 c2.
  destruct (stale_reverse_removes_live_forward
              "key-123" "thing-old" "thing-new" c c1 c2)
    as (Hf & Hr & Hrm); [discriminate | reflexivity | reflexivity |].
  split; [exact Hf|]. split; [exact Hr|].
  apply Hrm. unfold up. simpl. constructor.
Defined.

End remove.

(** ** Save *)
Section save.

(** C4: [Save] issues the write of the forward entry first and, when
    that one is served, the write of the reverse entry second.  It returns
    nil when both are served, and otherwise the error of the write that got
    no answer, wrapped: an error exactly when one of the writes it issued
    failed.  When the second write fails after the first was served, the
    forward entry stays written.  (A write that got no answer took effect
    when the server ran it and only its reply was lost.) *)
Theorem save_order_and_report (A B : string) (c : Client) :
  let rc := Save A B c in
  let w1 := SET (tkey A) B 0 in
  let w2 := SET (tid B) A 0 in
  let m1 := <[tkey A := Entry B 0]> (db c) in
  let m2 := <[tid B := Entry A 0]> m1 in
  match fault_at 0 c, fault_at 1 c with
  | Some f, _ =>
      trace rc.2 = trace c ++ [(w1, Some (Unreachable (fault_text f)))] ∧
      rc.1 = Some (Wrap ErrRedisThingSave (Unreachable (fault_text f))) ∧
      db rc.2 = (if applied f then m1 else db c)
  | None, Some f =>
      trace rc.2 = trace c ++
        [(w1, None); (w2, Some (Unreachable (fault_text f)))] ∧
      rc.1 = Some (Wrap ErrRedisThingSave (Unreachable (fault_text f))) ∧
      db rc.2 = (if applied f then m2 else m1) ∧
      db rc.2 !! tkey A = Some (Entry B 0)
  | None, None =>
      trace rc.2 = trace c ++ [(w1, None); (w2, None)] ∧
      rc.1 = None ∧
      db rc.2 = m2
  end ∧
  (rc.1 ≠ None ↔
   ∃ w e, (w, Some e) ∈ drop (length (trace c)) (trace rc.2)).
Proof.
  cbv zeta. rewrite Save_eq. cbv zeta. destruct (fault_at 0 c) as [f|].
  { cbn [fst snd trace db unanswered]. rewrite drop_app_length.
    split; [done|]. split; [|done]. intros _. do 2 eexists.
    apply list_elem_of_here. }
  rewrite fault_at_served. destruct (fault_at 1 c) as [f|];
    cbn [fst snd trace db unanswered served];
    rewrite <- app_assoc, drop_app_length; cbn [app].
  - split.
    + do 3 (split; [done|]). destruct (applied f).
      * rewrite lookup_insert_ne by (apply not_eq_sym, tkey_tid_ne).
        apply lookup_insert_eq.
      * apply lookup_insert_eq.
    + split; [|done]. intros _. do 2 eexists.
      apply list_elem_of_further, list_elem_of_here.
  - split; [done|]. split; [done|]. intros (w & e & Hin).
    apply elem_of_cons in Hin as [[=]|Hin].
    by apply list_elem_of_singleton in Hin as [=].
Qed.

Lemma save_order_and_report_witness :
  let c := mkClient ∅ [None; Some (Dropped "i/o timeout")] [] in
  let rc := Save "key-123" "thing-abc" c in
  (trace rc.2 =
     [(SET (tkey "key-123") "thing-abc" 0, None);
      (SET (tid "thing-abc") "key-123" 0, Some (Unreachable "i/o timeout"))] ∧
   rc.1 = Some (Wrap ErrRedisThingSave (Unreachable "i/o timeout")) ∧
   db rc.2 = <[tkey "key-123" := Entry "thing-abc" 0]> ∅ ∧
   db rc.2 !! tkey "key-123" = Some (Entry "thing-abc" 0)) ∧
  (rc.1 ≠ None ↔ ∃ w e, (w, Some e) ∈ drop 0 (trace rc.2)).
Proof.
  intros c rc.
  exact (save_order_and_report "key-123" "thing-abc" c).
Defined.

(** C7: both writes of [Save] carry expiration zero, so after a
    successful [Save] the forward and the reverse entry are stored with
    no time to live, and no lapse of time takes them out of the store. *)
Theorem save_entries_never_expire (A B : string) (c c' : Client) :
  Save A B c = (None, c') →
  trace c' = trace c ++ [(SET (tkey A) B 0, None); (SET (tid B) A 0, None)] ∧
  expiration <$> db c' !! tkey A = Some 0 ∧
  expiration <$> db c' !! tid B = Some 0 ∧
  (∀ d, elapse d (db c') !! tkey A = Some (Entry B 0) ∧
        elapse d (db c') !! tid B = Some (Entry A 0)).
Proof.
  intros Hs. pose proof (Save_ok_db _ _ _ _ Hs) as Hdb.
  assert (Hf : db c' !! tkey A = Some (Entry B 0)).
  { rewrite Hdb, lookup_insert_ne by (apply not_eq_sym, tkey_tid_ne).
    apply lookup_insert_eq. }
  assert (Hr : db c' !! tid B = Some (Entry A 0)).
  { rewrite Hdb. apply lookup_insert_eq. }
  split.
  { revert Hs. rewrite Save_eq. cbv zeta. destruct (fault_at 0 c); [done|].
    destruct (fault_at 0 _); [done|]. intros [= <-].
    simpl. by rewrite <- app_assoc. }
  rewrite Hf, Hr. do 2 (split; [done|]).
  intros d. unfold elapse. by rewrite !lookup_omap, Hf, Hr.
Qed.

Lemma save_entries_never_expire_witness :
  let c := mkClient ∅ [] [] in
  let c' := (Save "key-123" "thing-abc" c).2 in
  trace c' = [(SET (tkey "key-123") "thing-abc" 0, None);
              (SET (tid "thing-abc") "key-123" 0, None)] ∧
  expiration <$> db c' !! tkey "key-123" = Some 0 ∧
  expiration <$> db c' !! tid "thing-abc" = Some 0 ∧
  (∀ d, elapse d (db c') !! tkey "key-123" = Some (Entry "thing-abc" 0) ∧
        elapse d (db c') !! tid "thing-abc" = Some (Entry "key-123" 0)).
Proof.
  intros c c'.
  apply (save_entries_never_expire "key-123" "thing-abc" c c'). reflexivity.
Defined.

End save.

(** ** Errors returned by the cache *)
Section errors.

(** C6, as amended: every error returned by [Save], [ID] and [Remove] is
    the error of the failed store request wrapped in the operation's own
    error.  [ID] wraps both outcomes in [ErrRedisThingID]: [redis.Nil]
    when the store answered that the key is not there, the transport
    error when the store did not answer. *)
Theorem cache_errors_wrapped :
  (∀ A B c e c', Save A B c = (Some e, c') →
     ∃ err, e = Wrap ErrRedisThingSave err ∧
            ∃ req, last (trace c') = Some (req, Some err)) ∧
  (∀ thingID c e c', Remove thingID c = (Some e, c') →
     ∃ err, e = Wrap ErrRedisThingRemove err ∧
            ∃ req, last (trace c') = Some (req, Some err)) ∧
  (∀ thingKey c s e c', ID thingKey c = ((s, Some e), c') →
     s = "" ∧ component e = ErrRedisThingID ∧
     ((next_fault c = None ∧ db c !! tkey thingKey = None ∧
       e = Wrap ErrRedisThingID Nil)
      ∨
      (∃ t, next_fault c = Some t ∧
            e = Wrap ErrRedisThingID (Unreachable t)))).
Proof.
  split; [|split].
  - intros A B c e c'. rewrite Save_eq. cbv zeta. destruct (fault_at 0 c).
    { intros [= <- <-]. eexists. split; [done|]. eexists. apply last_snoc. }
    destruct (fault_at 0 _); intros [= <- <-].
    eexists. split; [done|]. eexists. apply last_snoc.
  - intros thingID c e c'. rewrite Remove_eq. destruct (next_fault c).
    { intros [= <- <-]. eexists. split; [done|]. eexists. apply last_snoc. }
    destruct (db c !! _).
    2:{ intros [= <- <-]. eexists. split; [done|]. eexists. apply last_snoc. }
    cbv zeta. destruct (fault_at 0 _); intros [= <- <-].
    eexists. split; [done|]. eexists. apply last_snoc.
  - intros thingKey c s e c'. rewrite ID_eq.
    destruct (next_fault c) as [t|].
    { intros [= <- <- <-]. do 2 (split; [done|]). right. by exists t. }
    destruct (db c !! _) eqn:Hk; intros [= <- <- <-].
    do 2 (split; [done|]). by left.
Qed.

Lemma cache_errors_wrapped_witness :
  let c := mkClient ∅ [Some (Dropped "dial tcp: connection refused")] [] in
  let e := Wrap ErrRedisThingID (Unreachable "dial tcp: connection refused") in
  "" = "" ∧ component e = ErrRedisThingID ∧
  ((next_fault c = None ∧ db c !! tkey "key-123" = None ∧
    e = Wrap ErrRedisThingID Nil)
   ∨
   (∃ t, next_fault c = Some t ∧ e = Wrap ErrRedisThingID (Unreachable t))).
Proof.
  intros c e.
  apply (proj2 (proj2 cache_errors_wrapped)
           "key-123" c "" e (ID "key-123" c).2).
  reflexivity.
Defined.

(** C6, as stated, fails: no test on the component-identifying part of
    the error returned by [ID] separates "entry not found" from "store
    unreachable".  An empty store that answers and a store that does not
    answer give errors with the same component. *)
Lemma id_miss_and_outage_same_component :
  ¬ ∃ d : Error → bool,
      ∀ thingKey c s e c', ID thingKey c = ((s, Some e), c') →
        (next_fault c = None → d (component e) = true) ∧
        (next_fault c ≠ None → d (component e) = false).
Proof.
  intros (d & Hd).
  pose (miss := mkClient ∅ [] []).
  pose (down :=
          mkClient ∅ [Some (Dropped "dial tcp: connection refused")] []).
  destruct (Hd "key-123" miss "" (Wrap ErrRedisThingID Nil)
              (ID "key-123" miss).2 eq_refl) as [Hm _].
  destruct (Hd "key-123" down ""
              (Wrap ErrRedisThingID (Unreachable "dial tcp: connection refused"))
              (ID "key-123" down).2 eq_refl) as [_ Ho].
  specialize (Hm eq_refl). simpl in Hm, Ho.
  rewrite Hm in Ho. by discriminate Ho.
Qed.

End errors.

(** ** The LoRa adapter's subscription to the things event store *)
Section lora.
Import LoraMain.

(** C8, as amended: when [Subscribe] on the lifecycle log returns an
    error, [subscribeToThingsES] logs it as a warning and returns; it
    does not end the process. *)
Theorem things_es_subscribe_failure_warns
    (Subscribe : string → option string) (err : string) :
  Subscribe "mainflux.things" = Some err →
  subscribeToThingsES Subscribe =
    [LogInfo "Subscribed to Redis Event Store";
     LogWarn ("Lora-adapter service failed to subscribe to Redis event source: "
              +:+ err)] ∧
  exits (subscribeToThingsES Subscribe) = false.
Proof. unfold subscribeToThingsES. by intros ->. Qed.

Lemma things_es_subscribe_failure_warns_witness :
  let Subscribe := λ _ : string, Some "dial tcp: connection refused" in
  exits (subscribeToThingsES Subscribe) = false.
Proof.
  intros Subscribe.
  apply (things_es_subscribe_failure_warns
           Subscribe "dial tcp: connection refused" eq_refl).
Defined.

(** C8, as stated, fails: with a [Subscribe] that returns an error the
    process is not ended, whereas the same failure of the MQTT
    subscription ends it. *)
Lemma things_es_subscribe_failure_not_fatal :
  let Subscribe := λ _ : string, Some "dial tcp: connection refused" in
  Subscribe "mainflux.things" ≠ None ∧
  exits (subscribeToThingsES Subscribe) = false ∧
  exits (subscribeToLoRaBroker Subscribe) = true.
Proof. by cbv. Qed.

End lora.

(** * Further properties of the thing cache *)
Section cache_frame.
Import ThingCacheInv.

(** The store after [Save], whatever its outcome: untouched, with the
    forward entry written, or with both entries written. *)
Lemma Save_db_cases thingKey thingID c :
  let m := db c in
  let rc := Save thingKey thingID c in
  (rc.1 ≠ None ∧ db rc.2 = m) ∨
  (rc.1 ≠ None ∧ db rc.2 = <[tkey thingKey := Entry thingID 0]> m) ∨
  db rc.2 = <[tid thingID := Entry thingKey 0]>
              (<[tkey thingKey := Entry thingID 0]> m).
Proof.
  cbv zeta. rewrite Save_eq. cbv zeta. destruct (fault_at 0 c) as [f|].
  { cbn [fst snd db unanswered]. destruct (applied f); [right|]; by left. }
  destruct (fault_at 0 _) as [f|]; cbn [fst snd db unanswered served].
  - destruct (applied f); [by right; right|]. right. by left.
  - by right; right.
Qed.

(** The store after [Remove], whatever its outcome: untouched, or without
    the reverse entry and the forward entry of the key it held. *)
Lemma Remove_db_cases thingID c :
  let rc := Remove thingID c in
  (rc.1 ≠ None ∧ db rc.2 = db c) ∨
  (∃ e, db c !! tid thingID = Some e ∧
        db rc.2 = delete (tid thingID) (delete (tkey (value e)) (db c))).
Proof.
  cbv zeta. rewrite Remove_eq. destruct (next_fault c); [by left|].
  destruct (db c !! tid thingID) as [e|] eqn:He; [|by left].
  cbv zeta. destruct (fault_at 0 _) as [f|];
    cbn [fst snd db unanswered served].
  - destruct (applied f); [right; by exists e|by left].
  - right. by exists e.
Qed.

(** [Remove] of a thing ID with no reverse entry fails and changes nothing. *)
Lemma remove_absent_fails_aux thingID c :
  db c !! tid thingID = None →
  ∃ e c', Remove thingID c = (Some (Wrap ErrRedisThingRemove e), c') ∧
          db c' = db c.
Proof.
  intros Habs. rewrite Remove_eq, Habs. destruct (next_fault c); eauto.
Qed.

(** X1: [Save] touches no key of the store but the forward key of its
    thing key and the reverse key of its thing ID, whether it succeeds,
    fails at once or fails half way. *)
Theorem Save_frame (A B k : string) (c : Client) :
  k ≠ tkey A → k ≠ tid B →
  db (Save A B c).2 !! k = db c !! k.
Proof.
  intros H1 H2.
  destruct (Save_db_cases A B c) as [[_ ->]|[[_ ->]| ->]]; [done| |].
  - by rewrite lookup_insert_ne.
  - by rewrite !lookup_insert_ne.
Qed.

Lemma Save_frame_witness :
  let c := (Save "key-1" "thing-1" (mkClient ∅ [] [])).2 in
  db (Save "key-2" "thing-2" c).2 !! tkey "key-1" = db c !! tkey "key-1".
Proof.
  intros c. apply (Save_frame "key-2" "thing-2" (tkey "key-1") c);
    [intros ?%tkey_inj; discriminate | apply tkey_tid_ne].
Defined.

(** X2: [Remove] touches no key of the store but the reverse key of its
    thing ID and the forward key of the thing key stored there; the
    entries of any other pair stay as they were. *)
Theorem Remove_frame (thingID k : string) (c : Client) :
  k ≠ tid thingID →
  (∀ key, value <$> db c !! tid thingID = Some key → k ≠ tkey key) →
  db (Remove thingID c).2 !! k = db c !! k.
Proof.
  intros H1 H2.
  destruct (Remove_db_cases thingID c) as [[_ ->]|(e & He & ->)]; [done|].
  rewrite lookup_delete_ne by done.
  rewrite lookup_delete_ne; [done|]. apply not_eq_sym, H2. by rewrite He.
Qed.

Lemma Remove_frame_witness :
  let c := (Save "key-2" "thing-2"
              (Save "key-1" "thing-1" (mkClient ∅ [] [])).2).2 in
  db (Remove "thing-1" c).2 !! tkey "key-2" = db c !! tkey "key-2".
Proof.
  intros c. apply (Remove_frame "thing-1" (tkey "key-2") c).
  - apply tkey_tid_ne.
  - intros key [= <-]. intros ?%tkey_inj. discriminate.
Defined.

(** X3: a second successful [Save] of the same pair changes nothing: the
    store is the one the first left. *)
Theorem Save_twice (A B : string) (c c1 c2 : Client) :
  Save A B c = (None, c1) →
  Save A B c1 = (None, c2) →
  db c2 = db c1.
Proof.
  intros H1%Save_ok_db H2%Save_ok_db. rewrite H2.
  rewrite insert_id; [apply insert_id|].
  - rewrite H1, lookup_insert_ne by (apply not_eq_sym, tkey_tid_ne).
    apply lookup_insert_eq.
  - rewrite lookup_insert_ne by apply tkey_tid_ne.
    rewrite H1. apply lookup_insert_eq.
Qed.

Lemma Save_twice_witness :
  let c := mkClient ∅ [] [] in
  let c1 := (Save "key-123" "thing-abc" c).2 in
  let c2 := (Save "key-123" "thing-abc" c1).2 in
  db c2 = db c1.
Proof.
  intros c c1 c2.
  apply (Save_twice "key-123" "thing-abc" c c1 c2); reflexivity.
Defined.

(** X4: on a store that holds neither the forward entry of [A] nor the
    reverse entry of [B], a successful [Save A B] followed by a successful
    [Remove B] gives back the store as it was. *)
Theorem Save_Remove_restores (A B : string) (c c1 c2 : Client) :
  db c !! tkey A = None →
  db c !! tid B = None →
  Save A B c = (None, c1) →
  Remove B c1 = (None, c2) →
  db c2 = db c.
Proof.
  intros Hf Hr Hs%Save_ok_db Hrm.
  destruct (Remove_db_cases B c1) as [[Hne _]|(e & He & Hdb)].
  { by rewrite Hrm in Hne. }
  rewrite Hrm in Hdb. simpl in Hdb. rewrite Hdb.
  rewrite Hs, lookup_insert_eq in He. injection He as <-. simpl value.
  rewrite Hs, delete_insert_ne by apply tkey_tid_ne.
  rewrite delete_insert_eq, delete_insert_eq.
  rewrite (delete_id _ (tkey A)) by done. by apply delete_id.
Qed.

Lemma Save_Remove_restores_witness :
  let c := (Save "key-1" "thing-1" (mkClient ∅ [] [])).2 in
  let c1 := (Save "key-123" "thing-abc" c).2 in
  let c2 := (Remove "thing-abc" c1).2 in
  db c2 = db c.
Proof.
  intros c c1 c2.
  apply (Save_Remove_restores "key-123" "thing-abc" c c1 c2); reflexivity.
Defined.

End cache_frame.

(** ** Pairs that stay paired, and pairs that do not *)
Section cache_pairs.
Import ThingCacheInv.

Lemma paired_empty : paired ∅.
Proof. intros k i. by rewrite !lookup_empty. Qed.

(** X5: on a store whose entries pair up, a successful [Save] of a thing
    key and a thing ID that are both new to the store leaves the entries
    paired. *)
Theorem Save_keeps_paired (A B : string) (c c1 : Client) :
  paired (db c) →
  db c !! tkey A = None →
  db c !! tid B = None →
  Save A B c = (None, c1) →
  paired (db c1).
Proof.
  intros Hp Hf Hr Hs%Save_ok_db k i. rewrite Hs.
  rewrite (lookup_insert_ne _ (tid B) (tkey k))
    by (apply not_eq_sym, tkey_tid_ne).
  rewrite (lookup_insert _ (tid B) (tid i)).
  rewrite (lookup_insert _ (tkey A) (tkey k)).
  rewrite (lookup_insert_ne _ (tkey A) (tid i)) by apply tkey_tid_ne.
  destruct (decide (tkey A = tkey k)) as [Ek|Hk];
    destruct (decide (tid B = tid i)) as [Ei|Hi].
  - apply tkey_inj in Ek as <-. apply tid_inj in Ei as <-. done.
  - apply tkey_inj in Ek as <-.
    split; [intros [= <-]; by destruct Hi|].
    intros Hi'. apply (proj2 (Hp A i)) in Hi'. by rewrite Hf in Hi'.
  - apply tid_inj in Ei as <-.
    split; [|intros [= <-]; by destruct Hk].
    intros Hk'. apply (proj1 (Hp k B)) in Hk'. by rewrite Hr in Hk'.
  - apply Hp.
Qed.

Lemma Save_keeps_paired_witness :
  let c := mkClient ∅ [] [] in
  paired (db (Save "key-123" "thing-abc" c).2).
Proof.
  intros c.
  apply (Save_keeps_paired "key-123" "thing-abc" c);
    [exact paired_empty | reflexivity | reflexivity | reflexivity].
Defined.

(** X6: on a store whose entries pair up, [Remove] leaves the entries
    paired, whatever its outcome. *)
Theorem Remove_keeps_paired (thingID : string) (c : Client) :
  paired (db c) → paired (db (Remove thingID c).2).
Proof.
  intros Hp.
  destruct (Remove_db_cases thingID c) as [[_ ->]|(e & He & ->)]; [done|].
  assert (HK : value <$> db c !! tid thingID = Some (value e))
    by (by rewrite He).
  pose proof (proj2 (Hp (value e) thingID) HK) as HF.
  intros k i.
  rewrite (lookup_delete_ne _ (tid thingID) (tkey k))
    by (apply not_eq_sym, tkey_tid_ne).
  rewrite (lookup_delete _ (tkey (value e)) (tkey k)).
  rewrite (lookup_delete _ (tid thingID) (tid i)).
  destruct (decide (tkey (value e) = tkey k)) as [Ek|Hk];
    destruct (decide (tid thingID = tid i)) as [Ei|Hi].
  - done.
  - apply tkey_inj in Ek as <-.
    rewrite lookup_delete_ne by apply tkey_tid_ne.
    split; [done|]. intros Hi'. apply (proj2 (Hp (value e) i)) in Hi'.
    rewrite HF in Hi'. injection Hi' as <-. by destruct Hi.
  - apply tid_inj in Ei as <-.
    split; [|done]. intros Hk'. apply (proj1 (Hp k thingID)) in Hk'.
    rewrite HK in Hk'. injection Hk' as <-. by destruct Hk.
  - rewrite lookup_delete_ne by apply tkey_tid_ne. apply Hp.
Qed.

Lemma Remove_keeps_paired_witness :
  let c := (Save "key-123" "thing-abc" (mkClient ∅ [] [])).2 in
  paired (db (Remove "thing-abc" c).2).
Proof.
  intros c. apply (Remove_keeps_paired "thing-abc" c).
  apply (Save_keeps_paired "key-123" "thing-abc" (mkClient ∅ [] []));
    [exact paired_empty | reflexivity | reflexivity | reflexivity].
Defined.

(** X7: on a store whose entries pair up, once [Remove] of a thing ID has
    succeeded no thing key resolves to that ID any more. *)
Theorem Remove_paired_unresolvable (thingID k : string) (c c' : Client) :
  paired (db c) →
  Remove thingID c = (None, c') →
  value <$> db c' !! tkey k ≠ Some thingID ∧
  (ID k c').1 ≠ (thingID, None).
Proof.
  intros Hp Hrm.
  pose proof (Remove_keeps_paired thingID c Hp) as Hp'.
  destruct (Remove_db_cases thingID c) as [[Hne _]|(e & _ & Hdb)].
  { by rewrite Hrm in Hne. }
  rewrite Hrm in Hp', Hdb. cbn [snd] in Hp', Hdb.
  assert (Hk : value <$> db c' !! tkey k ≠ Some thingID).
  { intros Hk. apply (proj1 (Hp' k thingID)) in Hk.
    by rewrite Hdb, lookup_delete_eq in Hk. }
  split; [done|]. rewrite ID_eq. destruct (next_fault c'); [done|].
  destruct (db c' !! tkey k) as [en|]; [|done].
  cbn [fst fmap option_fmap option_map] in *. congruence.
Qed.

Lemma Remove_paired_unresolvable_witness :
  let c := (Save "key-123" "thing-abc" (mkClient ∅ [] [])).2 in
  let c' := (Remove "thing-abc" c).2 in
  value <$> db c' !! tkey "key-123" ≠ Some "thing-abc" ∧
  (ID "key-123" c').1 ≠ ("thing-abc", None).
Proof.
  intros c c'.
  apply (Remove_paired_unresolvable "thing-abc" "key-123" c c');
    [|reflexivity].
  apply (Save_keeps_paired "key-123" "thing-abc" (mkClient ∅ [] []));
    [exact paired_empty | reflexivity | reflexivity | reflexivity].
Defined.

End cache_pairs.

(** ** What two keys for one thing, or half a [Save], leave behind *)
Section cache_leftovers.

(** X8: when two different thing keys were saved for one thing ID, the
    reverse entry holds the later key only; a successful [Remove] of the
    ID deletes that key's forward entry and the reverse entry, and the
    earlier key still resolves to the removed ID. *)
Theorem Remove_leaves_earlier_key
    (K1 K2 thingID : string) (c c1 c2 c3 : Client) :
  K1 ≠ K2 →
  Save K1 thingID c = (None, c1) →
  Save K2 thingID c1 = (None, c2) →
  Remove thingID c2 = (None, c3) →
  db c3 !! tid thingID = None ∧
  db c3 !! tkey K2 = None ∧
  value <$> db c3 !! tkey K1 = Some thingID ∧
  (ID K1 c3).1 =
    match next_fault c3 with
    | None => (thingID, None)
    | Some t => ("", Some (Wrap ErrRedisThingID (Unreachable t)))
    end.
Proof.
  intros Hne H1%Save_ok_db H2%Save_ok_db Hrm.
  assert (Hn : tkey K2 ≠ tkey K1) by (intros ?%tkey_inj; congruence).
  destruct (Remove_db_cases thingID c2) as [[Hx _]|(e & He & Hdb)].
  { by rewrite Hrm in Hx. }
  rewrite Hrm in Hdb. cbn [snd] in Hdb.
  rewrite H2, lookup_insert_eq in He. injection He as <-. cbn [value] in Hdb.
  assert (H3 : db c3 !! tkey K1 = Some (Entry thingID 0)).
  { rewrite Hdb, lookup_delete_ne by apply not_eq_sym, tkey_tid_ne.
    rewrite lookup_delete_ne by done.
    rewrite H2, lookup_insert_ne by apply not_eq_sym, tkey_tid_ne.
    rewrite lookup_insert_ne by done.
    rewrite H1, lookup_insert_ne by apply not_eq_sym, tkey_tid_ne.
    apply lookup_insert_eq. }
  split; [rewrite Hdb; apply lookup_delete_eq|].
  split.
  { rewrite Hdb, lookup_delete_ne by apply not_eq_sym, tkey_tid_ne.
    apply lookup_delete_eq. }
  rewrite ID_eq, H3. split; [done|]. by destruct (next_fault c3).
Qed.

Lemma Remove_leaves_earlier_key_witness :
  let c := mkClient ∅ [] [] in
  let c1 := (Save "key-old" "thing-abc" c).2 in
  let c2 := (Save "key-new" "thing-abc" c1).2 in
  let c3 := (Remove "thing-abc" c2).2 in
  db c3 !! tid "thing-abc" = None ∧
  db c3 !! tkey "key-new" = None ∧
  value <$> db c3 !! tkey "key-old" = Some "thing-abc" ∧
  (ID "key-old" c3).1 = ("thing-abc", None).
Proof.
  intros c c1 c2 c3.
  apply (Remove_leaves_earlier_key "key-old" "key-new" "thing-abc" c c1 c2 c3);
    [discriminate | reflexivity | reflexivity | reflexivity].
Defined.

(** X9: when the second write of [Save] gets no answer after the first
    was served, [Save] returns the error and the forward entry is written.
    If the server never saw the second write and the thing ID had no
    reverse entry, the store holds the forward entry with no reverse
    entry: [Remove] of the ID then fails and the thing key keeps resolving
    to the ID.  If the server ran the write and only its reply was lost,
    the pair is completely stored although [Save] reported an error, and a
    [Remove] of the ID whose requests are served succeeds and deletes
    both entries. *)
Theorem Save_second_write_unanswered (A B : string) (c : Client) (f : fault) :
  fault_at 0 c = None →
  fault_at 1 c = Some f →
  let rc := Save A B c in
  rc.1 = Some (Wrap ErrRedisThingSave (Unreachable (fault_text f))) ∧
  value <$> db rc.2 !! tkey A = Some B ∧
  if applied f then
    value <$> db rc.2 !! tid B = Some A ∧
    (up 2 rc.2 →
     ∃ c2, Remove B rc.2 = (None, c2) ∧
           db c2 !! tkey A = None ∧ db c2 !! tid B = None)
  else
    (db c !! tid B = None →
     db rc.2 !! tid B = None ∧
     ∃ e' c2, Remove B rc.2 = (Some (Wrap ErrRedisThingRemove e'), c2) ∧
              value <$> db c2 !! tkey A = Some B).
Proof.
  intros H0 H1. cbv zeta. rewrite Save_eq. cbv zeta.
  rewrite H0, fault_at_served, H1. cbn [fst snd].
  set (c1 := unanswered _ f _ _).
  assert (Hdb : db c1 =
                if applied f
                then <[tid B := Entry A 0]> (<[tkey A := Entry B 0]> (db c))
                else <[tkey A := Entry B 0]> (db c)) by done.
  clearbody c1. split; [done|].
  assert (Hf : db c1 !! tkey A = Some (Entry B 0)).
  { rewrite Hdb. destruct (applied f).
    - rewrite lookup_insert_ne by (apply not_eq_sym, tkey_tid_ne).
      apply lookup_insert_eq.
    - apply lookup_insert_eq. }
  rewrite Hf. split; [done|]. destruct (applied f).
  - assert (Hr : db c1 !! tid B = Some (Entry A 0))
      by (rewrite Hdb; apply lookup_insert_eq).
    rewrite Hr. split; [done|].
    intros (_ & Hup1 & Hup)%up_S. rewrite Remove_eq, Hup1, Hr. cbv zeta.
    specialize (Hup (GET (tid B)) None (db c1)).
    apply up_S in Hup as [-> _]. eexists. split; [done|].
    cbn [db served value]. split; [|apply lookup_delete_eq].
    rewrite lookup_delete_ne by (apply not_eq_sym, tkey_tid_ne).
    apply lookup_delete_eq.
  - intros Hr.
    assert (Hr' : db c1 !! tid B = None)
      by (by rewrite Hdb, lookup_insert_ne by apply tkey_tid_ne).
    split; [done|].
    destruct (remove_absent_fails_aux B c1 Hr') as (e' & c2 & Hrm & Hdb2).
    exists e', c2. split; [done|]. by rewrite Hdb2, Hf.
Qed.

Lemma Save_second_write_unanswered_witness :
  let never_seen := mkClient ∅ [None; Some (Dropped "i/o timeout")] [] in
  let reply_lost := mkClient ∅ [None; Some (Lost "i/o timeout")] [] in
  let c1 := (Save "key-123" "thing-abc" never_seen).2 in
  let c1' := (Save "key-123" "thing-abc" reply_lost).2 in
  (db c1 !! tid "thing-abc" = None ∧
   ∃ e' c2, Remove "thing-abc" c1 = (Some (Wrap ErrRedisThingRemove e'), c2) ∧
            value <$> db c2 !! tkey "key-123" = Some "thing-abc") ∧
  (value <$> db c1' !! tid "thing-abc" = Some "key-123" ∧
   ∃ c2, Remove "thing-abc" c1' = (None, c2) ∧
         db c2 !! tkey "key-123" = None ∧ db c2 !! tid "thing-abc" = None).
Proof.
  intros never_seen reply_lost c1 c1'. split.
  - apply (Save_second_write_unanswered "key-123" "thing-abc" never_seen
             (Dropped "i/o timeout") eq_refl eq_refl). reflexivity.
  - destruct (Save_second_write_unanswered "key-123" "thing-abc" reply_lost
                (Lost "i/o timeout") eq_refl eq_refl) as (_ & _ & Hr & Hrm).
    split; [exact Hr|]. apply Hrm. unfold up. simpl. constructor.
Defined.

(** X10: a [Save] that succeeds after a failed [Save] of the same pair,
    failed at the first write or at the second, the server having run the
    failed write or not, leaves the store a [Save] that had succeeded at
    once would have left. *)
Theorem Save_retry_heals (A B : string) (c c1 c2 : Client) (e : Error) :
  Save A B c = (Some e, c1) →
  Save A B c1 = (None, c2) →
  db c2 = <[tid B := Entry A 0]> (<[tkey A := Entry B 0]> (db c)).
Proof.
  intros H1 H2%Save_ok_db. rewrite H2.
  destruct (Save_db_cases A B c) as [[_ Hdb]|[[_ Hdb]|Hdb]];
    rewrite H1 in Hdb; cbn [fst snd] in Hdb; rewrite Hdb.
  - done.
  - by rewrite insert_insert_eq.
  - rewrite insert_id; [apply insert_id|].
    + rewrite lookup_insert_ne by (apply not_eq_sym, tkey_tid_ne).
      apply lookup_insert_eq.
    + rewrite lookup_insert_ne by apply tkey_tid_ne.
      apply lookup_insert_eq.
Qed.

Lemma Save_retry_heals_witness :
  let c := mkClient ∅ [None; Some (Dropped "i/o timeout")] [] in
  let c1 := (Save "key-123" "thing-abc" c).2 in
  let c2 := (Save "key-123" "thing-abc" c1).2 in
  db c2 = <[tid "thing-abc" := Entry "key-123" 0]>
            (<[tkey "key-123" := Entry "thing-abc" 0]> (db c)).
Proof.
  intros c c1 c2.
  apply (Save_retry_heals "key-123" "thing-abc" c c1 c2
           (Wrap ErrRedisThingSave (Unreachable "i/o timeout")));
    reflexivity.
Defined.

End cache_leftovers.

(** * The in-memory user repository *)
Section users_mock.
Context {User : Type} (Email : User → string) (zero : User).

(** X12: a user saved under an email that is free is retrieved by that
    email as saved; a later [Save] of any user with the same email fails
    with [ErrConflict] and leaves the first one in place. *)
Theorem users_first_save_wins
    (u u' : User) (users users1 : gmap string User) :
  UsersMock.Save Email u users = (None, users1) →
  Email u' = Email u →
  UsersMock.RetrieveByID zero (Email u) users1 = (u, None) ∧
  UsersMock.Save Email u' users1 = (Some UsersMock.ErrConflict, users1).
Proof.
  unfold UsersMock.Save, UsersMock.RetrieveByID. intros Hs ->.
  destruct (users !! Email u); [done|]. injection Hs as <-.
  by rewrite lookup_insert_eq.
Qed.

(** X13: [Update] and [UpdateUser] replace the user stored under the
    email of their argument, and do nothing but return [ErrUserNotFound]
    when there is none: they never create a user. *)
Theorem users_update_replaces_never_creates
    (u : User) (users : gmap string User) :
  UsersMock.UpdateUser Email u users = UsersMock.Update Email u users ∧
  match users !! Email u with
  | Some _ =>
      (UsersMock.Update Email u users).1 = None ∧
      UsersMock.RetrieveByID zero (Email u) (UsersMock.Update Email u users).2
        = (u, None)
  | None =>
      UsersMock.Update Email u users = (Some UsersMock.ErrUserNotFound, users) ∧
      UsersMock.RetrieveByID zero (Email u) (UsersMock.Update Email u users).2
        = (zero, Some UsersMock.ErrNotFound)
  end.
Proof.
  split; [done|].
  unfold UsersMock.Update, UsersMock.RetrieveByID.
  destruct (users !! Email u) eqn:Hu; cbn [fst snd].
  - by rewrite lookup_insert_eq.
  - by rewrite Hu.
Qed.

(** X14: [UpdatePassword] stores nothing: after a successful call the
    user retrieved under the email is the one that was there, with the
    password it had. *)
Theorem users_update_password_keeps_user
    (token password : string) (users : gmap string User) :
  (UsersMock.UpdatePassword token password users).2 = users ∧
  ((UsersMock.UpdatePassword token password users).1 = None ↔
   is_Some (users !! token)) ∧
  UsersMock.RetrieveByID zero token
    (UsersMock.UpdatePassword token password users).2
    = UsersMock.RetrieveByID zero token users.
Proof.
  unfold UsersMock.UpdatePassword.
  destruct (users !! token) eqn:Ht; cbn [fst snd];
    (split; [done|]); (split; [|done]).
  - split; [by eauto|done].
  - split; [done|]. by intros [? [=]].
Qed.

(** No call shrinks the set of emails in use. *)
Lemma subseteq_dom_step (k : UsersMock.call) (users : gmap string User) :
  dom users ⊆ dom (UsersMock.step Email users k).
Proof.
  destruct k as [u|u|u|t p]; cbn [UsersMock.step];
    unfold UsersMock.Save, UsersMock.Update, UsersMock.UpdateUser,
      UsersMock.UpdatePassword;
    destruct (users !! _) eqn:Hl; cbn [snd]; set_solver.
Qed.

(** One call keeps every user under its own email. *)
Lemma users_step_inv (k : UsersMock.call) (users : gmap string User) :
  (∀ e u, users !! e = Some u → Email u = e) →
  (∀ e u, UsersMock.step Email users k !! e = Some u → Email u = e).
Proof.
  intros Hinv.
  destruct k as [u|u|u|t p]; cbn [UsersMock.step];
    unfold UsersMock.Save, UsersMock.Update, UsersMock.UpdateUser,
      UsersMock.UpdatePassword;
    destruct (users !! _) eqn:Hl; cbn [snd]; try done;
    intros e u' [[<- <-]|[_ ?]]%lookup_insert_Some; eauto.
Qed.

(** X15: whatever calls are made, in whatever order, every user of the
    repository stays stored under its own email: retrieving by an email
    never yields a user with another email. *)
Theorem users_keyed_by_email
    (calls : list UsersMock.call) (users : gmap string User) :
  (∀ e u, users !! e = Some u → Email u = e) →
  ∀ e u, UsersMock.RetrieveByID zero e (UsersMock.run Email calls users)
           = (u, None) →
         Email u = e.
Proof.
  intros Hinv e u. unfold UsersMock.RetrieveByID.
  enough (Hrun : ∀ e u, UsersMock.run Email calls users !! e = Some u →
                        Email u = e).
  { destruct (_ !! e) eqn:Hl; [|done]. intros [= <-]. by apply Hrun. }
  clear e u. revert users Hinv. unfold UsersMock.run.
  induction calls as [|k calls IH]; intros users Hinv; [done|].
  cbn [foldl]. apply IH. by apply users_step_inv.
Qed.

(** X16: no call of the repository removes a user: an email that is
    taken stays taken through any run of calls. *)
Theorem users_never_removed
    (calls : list UsersMock.call) (users : gmap string User) (e : string) :
  is_Some (users !! e) →
  is_Some (UsersMock.run Email calls users !! e).
Proof.
  rewrite <- !elem_of_dom. revert users. unfold UsersMock.run.
  induction calls as [|k calls IH]; intros users He; [done|].
  cbn [foldl]. apply IH. revert He. apply subseteq_dom_step.
Qed.

End users_mock.

Lemma users_first_save_wins_witness :
  let Email := λ u : string * string, u.1 in
  let u := ("ann@example.com", "first") in
  let u' := ("ann@example.com", "second") in
  let users1 := (UsersMock.Save Email u ∅).2 in
  UsersMock.RetrieveByID ("", "") (Email u) users1 = (u, None) ∧
  UsersMock.Save Email u' users1 = (Some UsersMock.ErrConflict, users1).
Proof.
  intros Email u u' users1.
  apply (users_first_save_wins Email ("", "") u u' ∅ users1); reflexivity.
Defined.

Lemma users_keyed_by_email_witness :
  let Email := λ u : string * string, u.1 in
  let calls := [UsersMock.CallSave ("ann@example.com", "first");
                UsersMock.CallUpdate ("ann@example.com", "second")] in
  Email ("ann@example.com", "second") = "ann@example.com".
Proof.
  intros Email calls.
  apply (users_keyed_by_email Email ("", "") calls ∅);
    [intros e u; by rewrite lookup_empty | reflexivity].
Defined.

Lemma users_never_removed_witness :
  let Email := λ u : string * string, u.1 in
  let users := (UsersMock.Save Email ("ann@example.com", "first") ∅).2 in
  let calls := [UsersMock.CallSave ("ann@example.com", "second");
                UsersMock.CallUpdatePassword "bob@example.com" "x"] in
  is_Some (UsersMock.run Email calls users !! "ann@example.com").
Proof.
  intros Email users calls.
  apply (users_never_removed Email calls users "ann@example.com").
  by eexists.
Defined.

(** * The filter of a read from MongoDB *)
Section mongo_filter.
Import MongoReader.

(** The loop only ever appends: it adds one condition for each entry of
    the query that the [switch] lets through, in the order of the visit. *)
Lemma fmtCondition_loop (acc : list E) (query : list (string * string)) :
  foldl (λ filter '(name, value),
           if queried name then filter ++ [mkE name value] else filter)
        acc query =
  acc ++ ((λ p, mkE p.1 p.2) <$> filter (λ p, queried p.1 = true) query).
Proof.
  revert acc. induction query as [|[name val] query IH]; intros acc.
  { cbn. by rewrite app_nil_r. }
  cbn [foldl]. rewrite IH, filter_cons. cbn [fst].
  destruct (queried name) eqn:Hq.
  - rewrite decide_True by done. by rewrite fmap_cons, <- app_assoc.
  - by rewrite decide_False by done.
Qed.

Lemma fmtCondition_eq chanID (query : list (string * string)) :
  fmtCondition chanID query =
  mkE "channel" chanID ::
    ((λ p, mkE p.1 p.2) <$> filter (λ p, queried p.1 = true) query).
Proof. unfold fmtCondition. by rewrite fmtCondition_loop. Qed.

(** X17: the filter always starts with the condition on the channel of
    the request, and every other condition is an entry of the query whose
    name is one of channel, subtopic, publisher, name and protocol; an
    entry under any other name is left out. *)
Theorem fmtCondition_conditions
    (chanID : string) (query : list (string * string)) :
  head (fmtCondition chanID query) = Some (mkE "channel" chanID) ∧
  ∀ name val,
    mkE name val ∈ tail (fmtCondition chanID query) ↔
    (name, val) ∈ query ∧
    name ∈ ["channel"; "subtopic"; "publisher"; "name"; "protocol"].
Proof.
  rewrite fmtCondition_eq. split; [done|]. intros name val. cbn [tail].
  rewrite list_elem_of_fmap. split.
  - intros ([n v] & [= <- <-] & [Hq Hin]%list_elem_of_filter).
    split; [done|]. by apply bool_decide_eq_true in Hq.
  - intros [Hin Hq]. exists (name, val). split; [done|].
    apply list_elem_of_filter. split; [|done].
    by apply bool_decide_eq_true.
Qed.

(** X18: a channel given in the query does not replace the channel of the
    request: the filter then holds both conditions, the request's first. *)
Theorem fmtCondition_channel_twice
    (chanID other : string) (query : list (string * string)) :
  ("channel", other) ∈ query →
  head (fmtCondition chanID query) = Some (mkE "channel" chanID) ∧
  mkE "channel" other ∈ tail (fmtCondition chanID query) ∧
  (2 ≤ length (fmtCondition chanID query))%nat.
Proof.
  intros Hin. rewrite fmtCondition_eq. split; [done|]. cbn [tail].
  assert (Ht : mkE "channel" other ∈
               (λ p, mkE p.1 p.2) <$> filter (λ p, queried p.1 = true) query).
  { apply list_elem_of_fmap. exists ("channel", other). split; [done|].
    by apply list_elem_of_filter. }
  split; [done|]. cbn [length].
  destruct ((λ p, mkE p.1 p.2) <$> _) as [|x l]; cbn [length]; [|lia].
  by apply elem_of_nil in Ht.
Qed.

Lemma fmtCondition_channel_twice_witness :
  let query := [("subtopic", "room"); ("channel", "2")] in
  head (fmtCondition "1" query) = Some (mkE "channel" "1") ∧
  mkE "channel" "2" ∈ tail (fmtCondition "1" query) ∧
  (2 ≤ length (fmtCondition "1" query))%nat.
Proof.
  intros query. apply (fmtCondition_channel_twice "1" "2" query).
  apply list_elem_of_further, list_elem_of_here.
Defined.

(** X19: the order in which the [range] loop visits the query changes
    nothing but the order of the conditions: two visits of the same
    entries give the same first condition and the same conditions after
    it, up to their order. *)
Theorem fmtCondition_visit_order
    (chanID : string) (query query' : list (string * string)) :
  query ≡ₚ query' →
  head (fmtCondition chanID query) = head (fmtCondition chanID query') ∧
  tail (fmtCondition chanID query) ≡ₚ tail (fmtCondition chanID query').
Proof.
  intros Hp. rewrite !fmtCondition_eq. split; [done|]. cbn [tail].
  by rewrite Hp.
Qed.

Lemma fmtCondition_visit_order_witness :
  let query := [("subtopic", "room"); ("name", "temp"); ("limit", "10")] in
  let query' := [("limit", "10"); ("name", "temp"); ("subtopic", "room")] in
  head (fmtCondition "1" query) = head (fmtCondition "1" query') ∧
  tail (fmtCondition "1" query) ≡ₚ tail (fmtCondition "1" query').
Proof.
  intros query query'.
  apply (fmtCondition_visit_order "1" query query').
  symmetry. exact (reverse_Permutation query).
Defined.

End mongo_filter.

(** * Reading a page of messages from MongoDB *)
Section mongo_read.
Import MongoReader.
Context {float64 : Type}.

(** The loop stops at the first document that fails to decode; when none
    does, it yields one message for each document, in order. *)
Lemma decodeAll_spec (docs : list (string + Doc.message float64))
    (acc : list (Senml.Message float64)) :
  match decodeAll docs acc with
  | inl err => inl err ∈ docs
  | inr messages =>
      ∃ ds, docs = inr <$> ds ∧ messages = acc ++ (fromDoc <$> ds)
  end.
Proof.
  revert acc. induction docs as [|[err|m] docs IH]; intros acc; cbn.
  - exists []. by rewrite app_nil_r.
  - apply list_elem_of_here.
  - specialize (IH (acc ++ [fromDoc m])).
    destruct (decodeAll docs _) as [err|messages].
    + by apply list_elem_of_further.
    + destruct IH as (ds & -> & ->). exists (m :: ds).
      by rewrite <- app_assoc.
Qed.

(** X20: when [ReadAll] returns an error, the page it returns is the
    empty one, with no message of the documents read so far; the error
    wraps that of the failed step: the query, the decoding of one of the
    documents, or the count. *)
Theorem ReadAll_error_no_page
    (find : string + list (string + Doc.message float64))
    (count : string + Z) (offset limit : Z)
    (page : MessagesPage float64) (e : ReadError) :
  ReadAll find count offset limit = (page, Some e) →
  page = zeroPage ∧
  ∃ err, e = Wrap_errReadMessages err ∧
         (find = inl err ∨
          (∃ docs, find = inr docs ∧ inl err ∈ docs) ∨
          count = inl err).
Proof.
  unfold ReadAll. destruct find as [err|docs].
  { intros [= <- <-]. split; [done|]. exists err. split; [done|]. by left. }
  pose proof (decodeAll_spec docs []) as Hd.
  destruct (decodeAll docs []) as [err|messages].
  { intros [= <- <-]. split; [done|]. exists err. split; [done|].
    right; left. by exists docs. }
  destruct count as [err|total].
  { intros [= <- <-]. split; [done|]. exists err. split; [done|].
    by right; right. }
  by destruct (decide (total < 0)).
Qed.

(** X21: when [ReadAll] returns no error, every document of the cursor
    decoded and the count was answered; the page then carries the total,
    the offset and the limit it was called with and one message for each
    document, in the cursor's order, unless the total is negative, in
    which case it is the empty page. *)
Theorem ReadAll_ok_page
    (find : string + list (string + Doc.message float64))
    (count : string + Z) (offset limit : Z)
    (page : MessagesPage float64) :
  ReadAll find count offset limit = (page, None) →
  ∃ ds total,
    find = inr (inr <$> ds) ∧ count = inr total ∧
    page = if decide (total < 0) then zeroPage
           else mkPage float64 total offset limit (fromDoc <$> ds).
Proof.
  unfold ReadAll. destruct find as [err|docs]; [done|].
  pose proof (decodeAll_spec docs []) as Hd.
  destruct (decodeAll docs []) as [err|messages]; [done|].
  destruct Hd as (ds & -> & ->).
  destruct count as [err|total]; [done|]. intros Hp.
  exists ds, total. do 2 (split; [done|]).
  destruct (decide (total < 0)); by injection Hp as <-.
Qed.

(** X22: the message built from a document carries at most one of the
    four value fields, the first that the document has among Value,
    StringValue, DataValue and BoolValue; the ones behind it are dropped,
    and the sum is copied whatever they are. *)
Theorem fromDoc_one_value (m : Doc.message float64) :
  let msg := fromDoc m in
  Senml.Value msg = Doc.Value m ∧
  Senml.StringValue msg =
    (if Doc.Value m is Some _ then None else Doc.StringValue m) ∧
  Senml.DataValue msg =
    (if Doc.Value m is Some _ then None
     else if Doc.StringValue m is Some _ then None else Doc.DataValue m) ∧
  Senml.BoolValue msg =
    (if Doc.Value m is Some _ then None
     else if Doc.StringValue m is Some _ then None
     else if Doc.DataValue m is Some _ then None else Doc.BoolValue m) ∧
  Senml.Sum msg = Doc.Sum m ∧
  (length (filter (λ b : bool, b = true)
     [bool_decide (is_Some (Senml.Value msg));
      bool_decide (is_Some (Senml.StringValue msg));
      bool_decide (is_Some (Senml.DataValue msg));
      bool_decide (is_Some (Senml.BoolValue msg))]) ≤ 1)%nat.
Proof.
  unfold fromDoc.
  destruct (Doc.Value m), (Doc.StringValue m), (Doc.DataValue m),
    (Doc.BoolValue m); repeat split; vm_compute; lia.
Qed.

End mongo_read.

Lemma ReadAll_error_no_page_witness :
  let doc := MongoReader.Doc.mkMessage Z "1" "" "2" "mqtt" "temp" "C"
               (Some 21) None None None None 100 100 in
  let find := inr [inr doc; inl "cannot decode"] in
  let rc := MongoReader.ReadAll find (inr 2) 0 10 in
  rc.1 = MongoReader.zeroPage ∧
  ∃ err, MongoReader.Wrap_errReadMessages "cannot decode"
           = MongoReader.Wrap_errReadMessages err ∧
         (find = inl err ∨
          (∃ docs, find = inr docs ∧ inl err ∈ docs) ∨
          @inr string Z 2 = inl err).
Proof.
  intros doc find rc.
  apply (ReadAll_error_no_page find (inr 2) 0 10 rc.1
           (MongoReader.Wrap_errReadMessages "cannot decode")).
  reflexivity.
Defined.

Lemma ReadAll_ok_page_witness :
  let doc := MongoReader.Doc.mkMessage Z "1" "" "2" "mqtt" "temp" "C"
               (Some 21) (Some "warm") None None None 100 100 in
  let find := inr [inr doc] in
  let page := (MongoReader.ReadAll find (inr 1) 0 10).1 in
  ∃ ds total,
    find = inr (inr <$> ds) ∧ @inr string Z 1 = inr total ∧
    page = if decide (total < 0) then MongoReader.zeroPage
           else MongoReader.mkPage Z total 0 10 (MongoReader.fromDoc <$> ds).
Proof.
  intros doc find page.
  apply (ReadAll_ok_page find (inr 1) 0 10 page). reflexivity.
Defined.
